(** * The CryptoMiniSat adapter of [sage.sat.solvers.cryptominisat]

    A shallow embedding of the class [CryptoMiniSat]: a thin adapter that
    forwards clauses to the [pycryptosat] engine and keeps its own record of
    the variables and clauses it has seen.  The engine is an external
    package; the adapter is modelled over an arbitrary engine given by its
    interface, and every method is a function from the state of the object
    before the call to the value returned (or the exception raised) and the
    state after the call. *)

From stdpp Require Import prelude strings gmap pretty.

#[local] Set Warnings "-clear-no-such-hyp".

Local Open Scope Z_scope.

(** ** Python values exchanged with the engine *)

(** [solve] of the engine answers with a pair of Python objects; the adapter
    only tests the first for truth and hands the second back. *)
Inductive pyval :=
  | PyNone
  | PyBool (b : bool)
  | PyTuple (t : list (option bool)).

(** Python truth value testing, as done by [if satisfiable:]. *)
Definition truthy (v : pyval) : bool :=
  match v with
  | PyNone => false
  | PyBool b => b
  | PyTuple t => bool_decide (t ≠ [])
  end.

(** Exceptions raised by the adapter. *)
Inductive exn :=
  | ValueError (lits : list Z)
  | PackageNotFoundError (pkg : string).

(** [int(i)]: a Sage integer becomes a Python integer of the same value. *)
Definition int (i : Z) : Z := i.

(** An entry of [self._clauses]: [(lits, is_xor, rhs)], with [rhs] being
    [None] for an ordinary clause. *)
Definition clause_entry : Type := list Z * bool * option bool.

(** ** The interface of [pycryptosat.Solver] used by the adapter *)

Class Engine := {
  eng : Type;
  (** [Solver(verbose=, confl_limit=, threads=)] *)
  Solver : Z → Z → Z → eng;
  eng_add_clause : list Z → eng → eng;
  eng_add_xor_clause : list Z → bool → eng → eng;
  (** [solve(assumptions=None)] returns [(satisfiable, assignments)] *)
  eng_solve : option (list Z) → eng → (pyval * pyval) * eng;
}.

(** The calls into the engine are taken to return: what an engine may
    reject on its own account is not part of the adapter. *)

(** What [__init__] reads from its surroundings: [ncpus()], [sys.maxint],
    and whether [from pycryptosat import Solver] succeeds. *)
Record Env := {
  ncpus : Z;
  maxint : Z;
  pycryptosat_installed : bool;
}.

(** ** The adapter *)

Section Adapter.
Context `{E : Engine}.

Record CryptoMiniSat := {
  _solver : eng;
  _vars : gset Z;
  _clauses : list clause_entry;
}.

Definition __init__ (env : Env) (verbosity : Z) (confl_limit : option Z)
    (threads : option Z) : exn + CryptoMiniSat :=
  let threads := match threads with None => ncpus env | Some t => t end in
  let confl_limit :=
    match confl_limit with None => maxint env | Some c => c end in
  if pycryptosat_installed env then
    inr {| _solver := Solver (int verbosity) (int confl_limit) (int threads);
           _vars := ∅;
           _clauses := [] |}
  else inl (PackageNotFoundError "cryptominisat").

(** [max(self._vars)]; only called on a non-empty set. *)
Definition py_max (X : gset Z) : Z :=
  match elements X with
  | [] => 0
  | x :: l => foldl Z.max x l
  end.

Definition var (decision : option bool) (self : CryptoMiniSat)
    : Z * CryptoMiniSat :=
  if bool_decide (size (_vars self) = 0%nat) then (1, self)
  else (py_max (_vars self) + 1, self).

Definition nvars (self : CryptoMiniSat) : nat * CryptoMiniSat :=
  (size (_vars self), self).

Definition add_clause (lits : list Z) (self : CryptoMiniSat)
    : (exn + unit) * CryptoMiniSat :=
  if bool_decide (0 ∈ lits) then (inl (ValueError lits), self)
  else
    let lits := int <$> lits in
    (inr (),
     {| _solver := eng_add_clause lits (_solver self);
        _vars := _vars self ∪ list_to_set (Z.abs <$> lits);
        _clauses := _clauses self ++ [(lits, false, None)] |}).

(** [rhs] is [None] when the caller leaves it out (default [True]). *)
Definition add_xor_clause (lits : list Z) (rhs : option bool)
    (self : CryptoMiniSat) : (exn + unit) * CryptoMiniSat :=
  let rhs := default true rhs in
  if bool_decide (0 ∈ lits) then (inl (ValueError lits), self)
  else
    let lits := int <$> lits in
    (inr (),
     {| _solver := eng_add_xor_clause lits rhs (_solver self);
        _vars := _vars self ∪ list_to_set (Z.abs <$> lits);
        _clauses := _clauses self ++ [(lits, true, Some rhs)] |}).

Definition __call__ (assumptions : option (list Z)) (self : CryptoMiniSat)
    : pyval * CryptoMiniSat :=
  let '((satisfiable, assignments), e) := eng_solve None (_solver self) in
  let self := {| _solver := e;
                 _vars := _vars self;
                 _clauses := _clauses self |} in
  if truthy satisfiable then (assignments, self)
  else (PyBool false, self).

(** What [clauses] gives back: the list itself, or nothing after handing
    the clauses to [DIMACS.render_dimacs(self._clauses, filename, nvars)]. *)
Inductive clauses_result :=
  | Returned (cs : list clause_entry)
  | Rendered (cs : list clause_entry) (filename : string) (nvars : nat).

Definition clauses (filename : option string) (self : CryptoMiniSat)
    : clauses_result * CryptoMiniSat :=
  match filename with
  | None => (Returned (_clauses self), self)
  | Some fn => (Rendered (_clauses self) fn (nvars self).1, self)
  end.

(** ** Sequences of calls *)

Inductive call :=
  | CVar (decision : option bool)
  | CNvars
  | CAddClause (lits : list Z)
  | CAddXorClause (lits : list Z) (rhs : option bool)
  | CSolve (assumptions : option (list Z))
  | CClauses (filename : option string).

(** The state after one call, whatever it returned or raised. *)
Definition step (self : CryptoMiniSat) (c : call) : CryptoMiniSat :=
  match c with
  | CVar d => (var d self).2
  | CNvars => (nvars self).2
  | CAddClause lits => (add_clause lits self).2
  | CAddXorClause lits rhs => (add_xor_clause lits rhs self).2
  | CSolve a => (__call__ a self).2
  | CClauses fn => (clauses fn self).2
  end.

Definition run (cs : list call) (self : CryptoMiniSat) : CryptoMiniSat :=
  foldl step self cs.

(** The entries that the calls of a trace add to the clause list: the
    [add_clause] and [add_xor_clause] calls that do not raise. *)
Definition entry_of (c : call) : list clause_entry :=
  match c with
  | CAddClause lits =>
      if bool_decide (0 ∈ lits) then [] else [(int <$> lits, false, None)]
  | CAddXorClause lits rhs =>
      if bool_decide (0 ∈ lits) then []
      else [(int <$> lits, true, Some (default true rhs))]
  | _ => []
  end.

Definition entries (cs : list call) : list clause_entry :=
  cs ≫= entry_of.

Definition lits_of (en : clause_entry) : list Z := en.1.1.

(** A call that is neither [add_clause] nor [add_xor_clause]. *)
Definition adds_nothing (c : call) : bool :=
  match c with
  | CAddClause _ | CAddXorClause _ _ => false
  | _ => true
  end.

End Adapter.

Arguments CryptoMiniSat : clear implicits.
Arguments _solver {E} _.
Arguments _vars {E} _.
Arguments _clauses {E} _.

(** A solver built by [__init__] and then driven through a trace of calls. *)
Definition session `{E : Engine} (env : Env) (verbosity : Z)
    (confl_limit threads : option Z) (cs : list call)
    : exn + CryptoMiniSat E :=
  match __init__ env verbosity confl_limit threads with
  | inl err => inl err
  | inr self => inr (run cs self)
  end.

(** ** Reading an assignment tuple *)

(** The tuple [(None, b1, ..., bn)] gives variable [i] the value at index
    [i]; index [0] and indices past the end give nothing. *)
Definition var_val (t : list (option bool)) (v : Z) : option bool :=
  if bool_decide (0 < v) then mjoin (t !! Z.to_nat v) else None.

(** The value of a literal: that of its variable, negated for a negative
    literal. *)
Definition lit_val (t : list (option bool)) (l : Z) : option bool :=
  (λ b : bool, if bool_decide (0 < l) then b else negb b)
    <$> var_val t (Z.abs l).

(** A clause holds when one of its literals is true. *)
Definition clause_sat (t : list (option bool)) (lits : list Z) : bool :=
  existsb (λ l, bool_decide (lit_val t l = Some true)) lits.

(** The exclusive or of the literal values, when all of them are set. *)
Definition parity (t : list (option bool)) (lits : list Z) : option bool :=
  foldr (λ l acc, b ← lit_val t l; a ← acc; Some (xorb b a)) (Some false) lits.

Definition xor_sat (t : list (option bool)) (lits : list Z) (rhs : bool)
    : bool :=
  bool_decide (parity t lits = Some rhs).

Definition entry_sat (t : list (option bool)) (en : clause_entry) : bool :=
  match en with
  | (lits, false, _) => clause_sat t lits
  | (lits, true, Some rhs) => xor_sat t lits rhs
  | (lits, true, None) => false
  end.

(** The largest absolute value among literals ([0] when there are none). *)
Definition max_abs (lits : list Z) : Z :=
  foldr (λ l m, Z.max (Z.abs l) m) 0 lits.

(** ** The contract of the engine *)

(** Modelled from the spec: the engine behind [self._solver] is the
    [pycryptosat] package, which is not part of the repository.  The spec
    gives its contract: it keeps every original clause and XOR constraint
    ("original clauses are never destroyed"), and an assignment it reports
    for a satisfiable instance "satisfies every added clause and every XOR
    constraint".  [db] reads the constraints an engine state holds. *)
Record EngineSound `{E : Engine} (db : eng → list clause_entry) : Prop := {
  db_Solver v c t : db (Solver v c t) = [];
  db_add_clause l e : db (eng_add_clause l e) = db e ++ [(l, false, None)];
  db_add_xor_clause l r e :
    db (eng_add_xor_clause l r e) = db e ++ [(l, true, Some r)];
  db_solve a e : db (eng_solve a e).2 = db e;
  solve_sound a e :
    truthy (eng_solve a e).1.1 = true →
    ∃ t, (eng_solve a e).1.2 = PyTuple t ∧
         Forall (λ en, entry_sat t en = true) (db e);
}.



(** ** A reference engine *)

(** Modelled from the spec: an executable engine with the interface of
    [pycryptosat.Solver] (which is not part of the repository), used to run
    the adapter on concrete inputs.  It tries the assignments of variables
    [1..N] in order, counts every rejected one as a conflict and gives up,
    answering [(None, None)], once the budget is spent; it answers
    [(True, (None, b1, ..., bN))] with the first assignment that passes and
    [(False, None)] when none does. *)
Module Ref.

(** Modelled from the spec: the state of the engine, which is not under the
    repository: its conflict budget, its variable count [N] and the
    constraints it was given. *)
Record state := {
  limit : Z;
  nv : nat;
  db : list clause_entry;
}.

(** Modelled from the spec: the assignments of [n] variables the search of
    the missing engine goes through. *)
Fixpoint candidates (n : nat) : list (list bool) :=
  match n with
  | O => [[]]
  | S n => (cons false <$> candidates n) ++ (cons true <$> candidates n)
  end.

(** Modelled from the spec: the "sequence of bool/unset indexed 1..N" of the
    missing engine, with index [0] unset. *)
Definition tuple_of (bs : list bool) : list (option bool) :=
  None :: (Some <$> bs).

(** Modelled from the spec: the budget test of the missing engine, "abort
    after this many conflicts", "unlimited when unset" ([mx] is the value
    that stands for unset). *)
Definition spent (mx limit conflicts : Z) : bool :=
  bool_decide (limit < mx) && bool_decide (limit ≤ conflicts).

(** Modelled from the spec: the search of the missing engine, ending in
    satisfiable, unsatisfiable or aborted. *)
Fixpoint search (mx limit : Z) (ok : list (option bool) → bool)
    (conflicts : Z) (cands : list (list bool)) : pyval * pyval :=
  match cands with
  | [] => (PyBool false, PyNone)
  | bs :: cands =>
      if ok (tuple_of bs) then (PyBool true, PyTuple (tuple_of bs))
      else if spent mx limit (conflicts + 1) then (PyNone, PyNone)
      else search mx limit ok (conflicts + 1) cands
  end.

(** Modelled from the spec: the test of the missing engine on a candidate,
    all constraints and all assumptions ("literals forced true"). *)
Definition accepts (assumptions : option (list Z)) (cs : list clause_entry)
    (t : list (option bool)) : bool :=
  forallb (entry_sat t) cs &&
  forallb (λ l, bool_decide (lit_val t l = Some true))
    (default [] assumptions).

(** Modelled from the spec: [solve] of the missing engine. *)
Definition solve (mx : Z) (assumptions : option (list Z)) (e : state)
    : (pyval * pyval) * state :=
  (search mx (limit e) (accepts assumptions (db e)) 0
     (candidates (nv e)), e).

(** Modelled from the spec: the missing engine behind the interface the
    adapter uses; adding a clause extends the variable count to the largest
    literal. *)
Definition engine (mx : Z) : Engine := {|
  eng := state;
  Solver verbose confl_limit threads :=
    {| limit := confl_limit; nv := 0%nat; db := [] |};
  eng_add_clause l e :=
    {| limit := limit e; nv := Nat.max (nv e) (Z.to_nat (max_abs l));
       db := db e ++ [(l, false, None)] |};
  eng_add_xor_clause l r e :=
    {| limit := limit e; nv := Nat.max (nv e) (Z.to_nat (max_abs l));
       db := db e ++ [(l, true, Some r)] |};
  eng_solve := solve mx;
|}.

End Ref.

(** A 64-bit Python 2 with the package installed, and one without it. *)
Definition env64 : Env :=
  {| ncpus := 4; maxint := 2 ^ 63 - 1; pycryptosat_installed := true |}.

Definition env64_bare : Env :=
  {| ncpus := 4; maxint := 2 ^ 63 - 1; pycryptosat_installed := false |}.

Definition ref64 : Engine := Ref.engine (maxint env64).

(** The state [__init__] builds on [env64] with the reference engine. *)
Definition fresh64 (confl_limit : Z) : CryptoMiniSat ref64 :=
  {| _solver := @Solver ref64 0 confl_limit 4; _vars := ∅; _clauses := [] |}.


(** ** What reaches the engine *)

(** The calls the adapter makes on [self._solver]. *)
Inductive engine_op :=
  | EAddClause (lits : list Z)
  | EAddXorClause (lits : list Z) (rhs : bool)
  | ESolve (assumptions : option (list Z)).

(** The state of an engine after one call, and after a list of calls. *)
Definition apply_op `{E : Engine} (e : eng) (op : engine_op) : eng :=
  match op with
  | EAddClause lits => eng_add_clause lits e
  | EAddXorClause lits rhs => eng_add_xor_clause lits rhs e
  | ESolve a => (eng_solve a e).2
  end.

Definition replay `{E : Engine} (ops : list engine_op) (e : eng) : eng :=
  foldl apply_op e ops.

(** The calls on the engine that a call on the adapter leads to: one
    [add_clause] or [add_xor_clause] for an accepted clause, one [solve()]
    without assumptions for [__call__], none otherwise. *)
Definition ops_of (c : call) : list engine_op :=
  match c with
  | CAddClause lits =>
      if bool_decide (0 ∈ lits) then [] else [EAddClause (int <$> lits)]
  | CAddXorClause lits rhs =>
      if bool_decide (0 ∈ lits) then []
      else [EAddXorClause (int <$> lits) (default true rhs)]
  | CSolve _ => [ESolve None]
  | _ => []
  end.

(** ** Printing *)


(** The variables [1] to [m] all occur among the literals. *)
Definition no_gaps (lits : list Z) : Prop :=
  ∀ i, 1 ≤ i ≤ max_abs lits → i ∈ Z.abs <$> lits.

(** * Properties of the adapter *)

(** Case analysis on a call: unfold the method, decide its tests and name
    the answer of the engine. *)
Ltac unfold_methods :=
  unfold var, nvars, add_clause, add_xor_clause, __call__, clauses in *.

Ltac step_cases c :=
  destruct c as [d| |lits|lits rhs|a|fn]; simpl; unfold_methods;
  repeat case_bool_decide; simpl;
  try (match goal with
       | |- context [eng_solve ?a ?e] =>
           destruct (eng_solve a e) as [[sat asg] e'] eqn:Hsolve; simpl;
           destruct (truthy sat); simpl
       end);
  try (match goal with fn : option string |- _ => destruct fn; simpl end).

Section AdapterFacts.
Context `{E : Engine}.
Implicit Types (self : CryptoMiniSat E) (c : call) (cs : list call).

(** ** What one call, and a trace of calls, does to each field *)

Lemma int_map (lits : list Z) : int <$> lits = lits.
Proof. unfold int. apply list_fmap_id. Qed.

Lemma entries_cons c cs : entries (c :: cs) = entry_of c ++ entries cs.
Proof. reflexivity. Qed.

Lemma run_cons c cs self : run (c :: cs) self = run cs (step self c).
Proof. reflexivity. Qed.

Lemma step_clauses self c :
  _clauses (step self c) = _clauses self ++ entry_of c.
Proof. step_cases c; by rewrite ?app_nil_r, ?int_map. Qed.

Lemma run_clauses cs self :
  _clauses (run cs self) = _clauses self ++ entries cs.
Proof.
  revert self. induction cs as [|c cs IH]; intros self.
  - by rewrite app_nil_r.
  - by rewrite run_cons, IH, step_clauses, entries_cons, (assoc_L (++)).
Qed.

Lemma step_vars self c :
  _vars (step self c)
  = _vars self ∪ list_to_set (Z.abs <$> (entry_of c ≫= lits_of)).
Proof.
  step_cases c; rewrite ?int_map, ?app_nil_r; try done;
    simpl; set_solver.
Qed.

Lemma run_vars cs self :
  _vars (run cs self)
  = _vars self ∪ list_to_set (Z.abs <$> (entries cs ≫= lits_of)).
Proof.
  revert self. induction cs as [|c cs IH]; intros self.
  - simpl. set_solver.
  - rewrite run_cons, IH, step_vars, entries_cons, bind_app, fmap_app,
      list_to_set_app_L. set_solver.
Qed.

Lemma session_inv env v cl th cs self :
  session env v cl th cs = inr self →
  pycryptosat_installed env = true ∧
  self = run cs {| _solver := Solver v (default (maxint env) cl)
                                (default (ncpus env) th);
                   _vars := ∅; _clauses := [] |}.
Proof.
  unfold session, __init__, int.
  destruct (pycryptosat_installed env); [|discriminate].
  intros [= <-]. split; [done|]. by destruct cl, th.
Qed.

End AdapterFacts.

(** * The reference engine meets the contract *)

Lemma max_abs_nonneg (lits : list Z) : 0 ≤ max_abs lits.
Proof. induction lits; simpl; lia. Qed.

Lemma max_abs_app (l1 l2 : list Z) :
  max_abs (l1 ++ l2) = Z.max (max_abs l1) (max_abs l2).
Proof. induction l1; simpl; [pose proof (max_abs_nonneg l2)|]; lia. Qed.

Section RefFacts.
Variable mx : Z.


(** A search that answers with a true first component answers with a
    candidate that passed the test. *)
Lemma Ref_search_true limit ok conflicts cands :
  truthy (Ref.search mx limit ok conflicts cands).1 = true →
  ∃ bs, bs ∈ cands ∧ ok (Ref.tuple_of bs) = true ∧
        Ref.search mx limit ok conflicts cands
        = (PyBool true, PyTuple (Ref.tuple_of bs)).
Proof.
  revert conflicts. induction cands as [|bs cands IH]; intros conflicts; simpl.
  - discriminate.
  - destruct (ok (Ref.tuple_of bs)) eqn:Hok.
    + intros _. exists bs. split; [left|done].
    + destruct (Ref.spent mx limit (conflicts + 1)); [discriminate|].
      intros (bs' & Hin & Hok' & Heq)%IH. exists bs'. split; [by right|done].
Qed.


Lemma Ref_sound : @EngineSound (Ref.engine mx) Ref.db.
Proof.
  split; try done.
  intros a e Hsat. simpl in *. unfold Ref.solve in *. simpl in *.
  apply Ref_search_true in Hsat as (bs & _ & Hok & ->).
  exists (Ref.tuple_of bs). split; [done|].
  unfold Ref.accepts in Hok. apply andb_prop in Hok as [Hok _].
  apply Forall_forall. intros en Hen.
  rewrite forallb_forall in Hok. by apply Hok, list_elem_of_In.
Qed.



End RefFacts.

(** * The adapter over an engine that meets the contract *)

Section ContractFacts.
Context `{E : Engine}.
Implicit Types (self : CryptoMiniSat E) (c : call) (cs : list call).

(** The engine holds exactly the entries recorded in [_clauses]. *)
Lemma step_db (db : eng → list clause_entry) (HE : EngineSound db) self c :
  db (_solver (step self c)) = db (_solver self) ++ entry_of c.
Proof.
  step_cases c; rewrite ?int_map, ?app_nil_r; try done;
    try apply (db_add_clause db HE);
    try apply (db_add_xor_clause db HE);
    by rewrite <- (db_solve db HE None (_solver self)), Hsolve.
Qed.

Lemma run_db (db : eng → list clause_entry) (HE : EngineSound db) cs self :
  db (_solver (run cs self)) = db (_solver self) ++ entries cs.
Proof.
  revert self. induction cs as [|c cs IH]; intros self.
  - by rewrite app_nil_r.
  - by rewrite run_cons, IH, (step_db db HE), entries_cons, (assoc_L (++)).
Qed.





(** [__call__] hands back a tuple only when the engine found one. *)
Lemma call_tuple a self t :
  (__call__ a self).1 = PyTuple t →
  truthy (eng_solve None (_solver self)).1.1 = true ∧
  (eng_solve None (_solver self)).1.2 = PyTuple t.
Proof.
  unfold __call__.
  destruct (eng_solve None (_solver self)) as [[sat asg] e']. simpl.
  destruct (truthy sat); simpl; [by intros ->|discriminate].
Qed.


Lemma entries_elem c cs en : c ∈ cs → en ∈ entry_of c → en ∈ entries cs.
Proof. intros Hc Hen. unfold entries. apply list_elem_of_bind. eauto. Qed.

End ContractFacts.

(** * The bookkeeping of variables *)

Section Bookkeeping.
Context `{E : Engine}.
Implicit Types (self : CryptoMiniSat E) (c : call) (cs : list call).

Lemma foldl_max_ge (l : list Z) (a : Z) :
  a ≤ foldl Z.max a l ∧ ∀ y, y ∈ l → y ≤ foldl Z.max a l.
Proof.
  revert a. induction l as [|x l IH]; intros a; simpl.
  - split; [lia|]. by intros y ?%not_elem_of_nil.
  - destruct (IH (Z.max a x)) as [Ha Hl]. split; [lia|].
    intros y [->|Hy]%elem_of_cons; [lia|]. by apply Hl.
Qed.

Lemma py_max_ge (X : gset Z) (x : Z) : x ∈ X → x ≤ py_max X.
Proof.
  rewrite <- elem_of_elements. unfold py_max.
  destruct (elements X) as [|y l]; [by intros ?%not_elem_of_nil|].
  destruct (foldl_max_ge l y) as [Hy Hl].
  intros [->|Hx]%elem_of_cons; [done|]. by apply Hl.
Qed.

Lemma entries_nonzero cs en : en ∈ entries cs → 0 ∉ lits_of en.
Proof.
  unfold entries. intros (c & Hen & _)%list_elem_of_bind.
  destruct c; simpl in Hen; try (by apply not_elem_of_nil in Hen);
    case_bool_decide; try (by apply not_elem_of_nil in Hen);
    apply list_elem_of_singleton in Hen as ->; unfold lits_of; simpl;
    by rewrite int_map.
Qed.

Lemma abs_le_max_abs (lits : list Z) (l : Z) :
  l ∈ lits → Z.abs l ≤ max_abs lits.
Proof.
  induction lits as [|l' lits IH]; [by intros ?%not_elem_of_nil|].
  simpl. intros [->|Hl]%elem_of_cons; [lia|]. apply IH in Hl. lia.
Qed.

End Bookkeeping.

(** The reference engine heeds assumptions: under the assumption that
    variable [2] is false it finds another assignment to [(1, 2)]. *)
Lemma Ref_heeds_assumptions :
  let e := @eng_add_clause ref64 [1; 2] (@Solver ref64 0 (maxint env64) 4) in
  (@eng_solve ref64 None e).1
  = (PyBool true, PyTuple [None; Some false; Some true]) ∧
  (@eng_solve ref64 (Some [-2]) e).1
  = (PyBool true, PyTuple [None; Some true; Some false]).
Proof. split; vm_compute; reflexivity. Qed.

(** * The specified behaviour *)

Lemma entries_adds_nothing (cs : list call) :
  forallb adds_nothing cs = true → entries cs = [].
Proof.
  induction cs as [|c cs IH]; [done|].
  intros H. simpl in H. apply andb_prop in H as [Hc Hcs].
  rewrite entries_cons, IH by done.
  destruct c; try discriminate; done.
Qed.

Lemma var_pure `{E : Engine} (self : CryptoMiniSat E) d :
  (var d self).2 = self.
Proof. unfold var. by case_bool_decide. Qed.

(** ** Solving *)

(** C1.  When a solver built by [__init__] and driven through any trace of
    calls answers [__call__] with an assignment tuple, that assignment makes
    a literal true in every clause that an [add_clause] call of the trace
    added, and gives the literals of every XOR constraint that an
    [add_xor_clause] call of the trace added the parity [rhs].  The engine
    is any engine that meets [EngineSound]. *)
Theorem solve_satisfies_added `{E : Engine} (db : eng → list clause_entry)
    (HE : EngineSound db) env v cl th cs a (self : CryptoMiniSat E) t :
  session env v cl th cs = inr self →
  (__call__ a self).1 = PyTuple t →
  (∀ lits, CAddClause lits ∈ cs → 0 ∉ lits → clause_sat t lits = true) ∧
  (∀ lits rhs, CAddXorClause lits rhs ∈ cs → 0 ∉ lits →
     xor_sat t lits (default true rhs) = true).
Proof.
  intros [_ ->]%session_inv [Hsat Ht]%call_tuple.
  destruct (solve_sound db HE _ _ Hsat) as (t' & Ht' & Hall).
  rewrite Ht in Ht'. injection Ht' as <-.
  rewrite (run_db db HE) in Hall. simpl in Hall.
  rewrite (db_Solver db HE), app_nil_l, Forall_forall in Hall.
  split.
  - intros lits Hin H0. apply (Hall (lits, false, None)).
    apply (entries_elem _ _ _ Hin). simpl.
    rewrite bool_decide_eq_false_2, int_map by done. by left.
  - intros lits rhs Hin H0. apply (Hall (lits, true, Some (default true rhs))).
    apply (entries_elem _ _ _ Hin). simpl.
    rewrite bool_decide_eq_false_2, int_map by done. by left.
Qed.

Lemma solve_satisfies_added_witness :
  let cs := [CAddClause [1; 2]; CAddXorClause [1; 2; 3] None;
             CAddClause [-1; 2]; CSolve None; CAddClause [-1; -2]] in
  let self := run cs (fresh64 (maxint env64)) in
  let t := [None; Some false; Some true; Some false] in
  @session ref64 env64 0 None None cs = inr self ∧
  (__call__ None self).1 = PyTuple t ∧
  (∀ lits, CAddClause lits ∈ cs → 0 ∉ lits → clause_sat t lits = true) ∧
  (∀ lits rhs, CAddXorClause lits rhs ∈ cs → 0 ∉ lits →
     xor_sat t lits (default true rhs) = true).
Proof.
  intros cs self t.
  assert (@session ref64 env64 0 None None cs = inr self) as Hs
    by reflexivity.
  assert ((__call__ None self).1 = PyTuple t) as Hc
    by (vm_compute; reflexivity).
  split; [exact Hs|]. split; [exact Hc|].
  exact (@solve_satisfies_added ref64 Ref.db (Ref_sound (maxint env64))
           env64 0 None None cs None self t Hs Hc).
Defined.

(** C2.  [__call__] with any [assumptions] returns the same value and leaves
    the solver in the same state as [__call__] without assumptions: the
    engine is always asked to solve without assumptions. *)
Theorem call_ignores_assumptions `{E : Engine} (self : CryptoMiniSat E)
    (assumptions : option (list Z)) :
  __call__ assumptions self = __call__ None self.
Proof. reflexivity. Qed.

(** ** Variables *)

(** C3.  On a solver just built, [var()] returns [1] and leaves the solver
    as it was, so a second [var()] returns [1] again: two calls in a row
    return the same identifier, not a new one. *)
Theorem var_twice_returns_one :
  @session ref64 env64 0 None None [] = inr (fresh64 (maxint env64)) ∧
  var None (fresh64 (maxint env64)) = (1, fresh64 (maxint env64)) ∧
  var None (var None (fresh64 (maxint env64))).2
  = (1, fresh64 (maxint env64)).
Proof. split; [reflexivity|]. split; vm_compute; reflexivity. Qed.

(** On any solver, a call of [var()] right after another returns the same
    identifier. *)
Lemma var_twice_same `{E : Engine} (self : CryptoMiniSat E) d d' :
  (var d' (var d self).2).1 = (var d self).1.
Proof. by rewrite var_pure. Qed.

(** C4, as stated, fails: after [add_clause((1,-2,4))] on a new solver
    [nvars()] is [3], while the largest absolute value of a literal added
    is [4]. *)
Lemma nvars_not_max_abs :
  let cs := [CAddClause [1; -2; 4]] in
  let self := run cs (fresh64 (maxint env64)) in
  @session ref64 env64 0 None None cs = inr self ∧
  (nvars self).1 = 3%nat ∧
  max_abs (entries cs ≫= lits_of) = 4 ∧
  Z.of_nat (nvars self).1 ≠ max_abs (entries cs ≫= lits_of).
Proof.
  intros cs self. split; [reflexivity|].
  split; [vm_compute; reflexivity|]. split; [reflexivity|].
  vm_compute. discriminate.
Qed.

(** C4, amended.  After any trace of calls on a solver built by [__init__],
    [nvars()] is the number of distinct absolute values among the literals
    that the [add_clause] and [add_xor_clause] calls of the trace added; on
    a new solver it is [0] and after [add_clause((1,-2,4))] it is [3]. *)
Theorem nvars_counts_distinct_variables `{E : Engine} env v cl th cs
    (self : CryptoMiniSat E) :
  session env v cl th cs = inr self →
  (nvars self).1
  = size (list_to_set (Z.abs <$> (entries cs ≫= lits_of)) : gset Z) ∧
  (cs = [] → (nvars self).1 = 0%nat) ∧
  (cs = [CAddClause [1; -2; 4]] → (nvars self).1 = 3%nat).
Proof.
  intros [_ ->]%session_inv.
  assert ((nvars (run cs {| _solver := Solver v (default (maxint env) cl)
                                         (default (ncpus env) th);
                            _vars := ∅; _clauses := [] |})).1
          = size (list_to_set (Z.abs <$> (entries cs ≫= lits_of)) : gset Z))
    as Hn.
  { unfold nvars. simpl. rewrite run_vars. simpl.
    by rewrite (left_id_L ∅ (∪)). }
  split; [exact Hn|]. rewrite Hn.
  split; intros ->; vm_compute; reflexivity.
Qed.

Lemma nvars_counts_distinct_variables_witness :
  let cs := [CAddClause [1; -2; 4]] in
  let self := run cs (fresh64 (maxint env64)) in
  @session ref64 env64 0 None None cs = inr self ∧
  (nvars self).1 = 3%nat.
Proof.
  intros cs self.
  assert (@session ref64 env64 0 None None cs = inr self) as Hs
    by reflexivity.
  split; [exact Hs|].
  exact (proj2 (proj2 (@nvars_counts_distinct_variables ref64
                         env64 0 None None cs self Hs)) eq_refl).
Defined.






(** C7.  After [add_clause((1,-2,4))] on a new solver, [__call__] returns
    the tuple of the engine, which has five entries (index [0] and the
    variables [1] to [4]), while [nvars()] is [3]: the tuple is longer than
    [nvars() + 1]. *)
Theorem call_tuple_longer_than_nvars :
  let cs := [CAddClause [1; -2; 4]] in
  let self := run cs (fresh64 (maxint env64)) in
  let t := [None; Some false; Some false; Some false; Some false] in
  @session ref64 env64 0 None None cs = inr self ∧
  (__call__ None self).1 = PyTuple t ∧
  (nvars self).1 = 3%nat ∧
  length t = 5%nat ∧
  length t ≠ ((nvars self).1 + 1)%nat.
Proof.
  intros cs self t. split; [reflexivity|].
  repeat split; try (vm_compute; reflexivity). vm_compute. discriminate.
Qed.

(** ** Adding clauses *)

(** C8.  When [0] is among the literals, [add_clause] and [add_xor_clause]
    raise [ValueError], and the solver (its variable set, its clause list
    and the state of the engine) is as it was before the call. *)
Theorem zero_literal_rejected `{E : Engine} (lits : list Z)
    (rhs : option bool) (self : CryptoMiniSat E) :
  0 ∈ lits →
  add_clause lits self = (inl (ValueError lits), self) ∧
  add_xor_clause lits rhs self = (inl (ValueError lits), self).
Proof.
  intros H0. unfold add_clause, add_xor_clause.
  by rewrite bool_decide_eq_true_2.
Qed.

Lemma zero_literal_rejected_witness :
  let self := run [CAddClause [1; 2]] (fresh64 (maxint env64)) in
  0 ∈ [3; 0; -1] ∧
  add_clause [3; 0; -1] self = (inl (ValueError [3; 0; -1]), self) ∧
  add_xor_clause [3; 0; -1] (Some false) self
  = (inl (ValueError [3; 0; -1]), self).
Proof.
  intros self.
  assert (0 ∈ [3; 0; -1]) as H0 by (right; left).
  split; [exact H0|].
  exact (@zero_literal_rejected ref64 [3; 0; -1] (Some false) self H0).
Defined.

(** ** Exporting clauses *)

(** C9.  After any trace of calls on a solver built by [__init__],
    [clauses()] without a file name returns the entries of the calls that
    added a clause, in the order of the calls: [(lits, False, None)] for an
    [add_clause(lits)] and [(lits, True, rhs)] for an
    [add_xor_clause(lits, rhs)] (see [entry_of]); the call leaves the solver
    as it was. *)
Theorem clauses_returns_added_in_order `{E : Engine} env v cl th cs
    (self : CryptoMiniSat E) :
  session env v cl th cs = inr self →
  clauses None self = (Returned (entries cs), self).
Proof.
  intros [_ ->]%session_inv. unfold clauses. by rewrite run_clauses.
Qed.

Lemma clauses_returns_added_in_order_witness :
  let cs := [CAddClause [1; 2; 3; 4; 5; 6; 7; 8; -9]; CVar None;
             CAddClause [0; 5]; CSolve None;
             CAddXorClause [1; 2; 3; 4; 5; 6; 7; 8; 9] (Some true);
             CAddXorClause [2; 3] None] in
  let self := run cs (fresh64 (maxint env64)) in
  @session ref64 env64 0 None None cs = inr self ∧
  clauses None self
  = (Returned [([1; 2; 3; 4; 5; 6; 7; 8; -9], false, None);
               ([1; 2; 3; 4; 5; 6; 7; 8; 9], true, Some true);
               ([2; 3], true, Some true)], self).
Proof.
  intros cs self.
  assert (@session ref64 env64 0 None None cs = inr self) as Hs
    by reflexivity.
  split; [exact Hs|].
  exact (@clauses_returns_added_in_order ref64 env64 0 None None cs self Hs).
Defined.

(** C10.  [clauses()] without a file name leaves the solver as it was, and
    a second [clauses()], after any calls other than [add_clause] and
    [add_xor_clause], returns the same list as the first. *)
Theorem clauses_twice_same `{E : Engine} (self : CryptoMiniSat E)
    (between : list call) :
  forallb adds_nothing between = true →
  (clauses None self).2 = self ∧
  (clauses None (run between (clauses None self).2)).1
  = (clauses None self).1.
Proof.
  intros Hb. split; [done|]. simpl.
  by rewrite run_clauses, entries_adds_nothing, app_nil_r.
Qed.

Lemma clauses_twice_same_witness :
  let self := run [CAddClause [1; 2]; CAddXorClause [1; 3] None]
                (fresh64 (maxint env64)) in
  let between := [CSolve (Some [-2]); CVar None; CNvars; CClauses None] in
  forallb adds_nothing between = true ∧
  (clauses None self).2 = self ∧
  (clauses None (run between (clauses None self).2)).1
  = (clauses None self).1.
Proof.
  intros self between.
  assert (forallb adds_nothing between = true) as Hb by reflexivity.
  split; [exact Hb|].
  exact (@clauses_twice_same ref64 self between Hb).
Defined.

(** * Further properties of the adapter *)

Section Forwarding.
Context `{E : Engine}.
Implicit Types (self : CryptoMiniSat E) (c : call) (cs : list call).

Lemma step_solver self c :
  _solver (step self c) = replay (ops_of c) (_solver self).
Proof. step_cases c; by rewrite ?int_map. Qed.

Lemma run_solver cs self :
  _solver (run cs self) = replay (cs ≫= ops_of) (_solver self).
Proof.
  revert self. induction cs as [|c cs IH]; intros self; [done|].
  rewrite run_cons, IH, step_solver. simpl. unfold replay.
  by rewrite foldl_app.
Qed.

End Forwarding.

(** X1.  The engine of a solver built by [__init__] and driven through any
    trace of calls is the engine [Solver(verbose, confl_limit, threads)]
    (with [sys.maxint] and [ncpus()] for the arguments left out) after
    exactly these calls, in the order of the trace: one [add_clause(lits)]
    or [add_xor_clause(lits, rhs)] for each such call without a [0]
    literal, one [solve()] without assumptions for each [__call__], and
    nothing for a rejected clause, [var], [nvars] or [clauses]. *)
Theorem engine_sees_accepted_calls `{E : Engine} env v cl th cs
    (self : CryptoMiniSat E) :
  session env v cl th cs = inr self →
  _solver self
  = replay (cs ≫= ops_of)
      (Solver v (default (maxint env) cl) (default (ncpus env) th)).
Proof. intros [_ ->]%session_inv. by rewrite run_solver. Qed.

Lemma engine_sees_accepted_calls_witness :
  let cs := [CAddClause [1; -2]; CVar None; CAddClause [3; 0];
             CSolve (Some [2]); CAddXorClause [1; 3] None; CClauses None] in
  let self := run cs (fresh64 7) in
  @session ref64 env64 0 (Some 7) None cs = inr self ∧
  _solver self
  = @replay ref64 [EAddClause [1; -2]; ESolve None; EAddXorClause [1; 3] true]
      (@Solver ref64 0 7 4).
Proof.
  intros cs self.
  assert (@session ref64 env64 0 (Some 7) None cs = inr self) as Hs
    by reflexivity.
  split; [exact Hs|].
  exact (@engine_sees_accepted_calls ref64 env64 0 (Some 7) None cs self Hs).
Defined.

Section Identifiers.
Context `{E : Engine}.
Implicit Types (self : CryptoMiniSat E) (c : call) (cs : list call).

Lemma foldl_max_in (l : list Z) (a : Z) : foldl Z.max a l ∈ a :: l.
Proof.
  revert a. induction l as [|x l IH]; intros a; simpl; [by left|].
  pose proof (IH (Z.max a x)) as [Heq|Hin]%elem_of_cons;
    [|by do 2 apply list_elem_of_further].
  rewrite Heq.
  destruct (Z.max_spec a x) as [[_ ->]|[_ ->]];
    [apply list_elem_of_further|]; apply list_elem_of_here.
Qed.

Lemma py_max_in (X : gset Z) : size X ≠ 0%nat → py_max X ∈ X.
Proof.
  intros Hsize. apply elem_of_elements. unfold py_max.
  destruct (elements X) as [|x l] eqn:Hel; [|apply foldl_max_in].
  apply elements_empty_inv in Hel. by apply size_empty_iff in Hel.
Qed.

Lemma max_abs_in (lits : list Z) :
  lits ≠ [] → max_abs lits ∈ Z.abs <$> lits.
Proof.
  induction lits as [|l lits IH]; [done|]. intros _. simpl.
  destruct lits as [|l' lits].
  - simpl. rewrite Z.max_l by lia. by left.
  - destruct (Z.max_spec (Z.abs l) (max_abs (l' :: lits))) as [[_ ->]|[_ ->]].
    + right. by apply IH.
    + by left.
Qed.

Lemma vars_of_session env v cl th cs self :
  session env v cl th cs = inr self →
  _vars self = list_to_set (Z.abs <$> (entries cs ≫= lits_of)).
Proof.
  intros [_ ->]%session_inv. rewrite run_vars. simpl.
  by rewrite (left_id_L ∅ (∪)).
Qed.

End Identifiers.

(** [var()] in terms of the literals accepted so far. *)
Lemma var_of_session `{E : Engine} env v cl th cs d
    (self : CryptoMiniSat E) :
  session env v cl th cs = inr self →
  (var d self).1 = max_abs (entries cs ≫= lits_of) + 1.
Proof.
  intros Hvars%vars_of_session. unfold var. rewrite Hvars. clear Hvars.
  set (L := entries cs ≫= lits_of).
  set (X := list_to_set (Z.abs <$> L) : gset Z).
  case_bool_decide as Hsize; simpl.
  - destruct L as [|l L]; [done|]. apply size_empty_inv in Hsize.
    set_solver.
  - f_equal. pose proof (py_max_in _ Hsize) as Hin.
    assert (L ≠ []) as HL.
    { intros HL. apply Hsize. subst X. by rewrite HL. }
    apply max_abs_in in HL.
    assert (max_abs L ∈ X) as Hm by (by apply elem_of_list_to_set).
    apply py_max_ge in Hm.
    apply elem_of_list_to_set in Hin.
    apply list_elem_of_fmap in Hin as (l & Hl & Hin).
    apply abs_le_max_abs in Hin. lia.
Qed.

(** X2.  After any trace of calls on a solver built by [__init__], [var()]
    returns one more than the largest absolute value of a literal in the
    clauses and XOR clauses accepted so far, and [1] when there is none. *)
Theorem var_is_one_past_largest `{E : Engine} env v cl th cs d
    (self : CryptoMiniSat E) :
  session env v cl th cs = inr self →
  (var d self).1 = max_abs (entries cs ≫= lits_of) + 1.
Proof. apply var_of_session. Qed.

Lemma var_is_one_past_largest_witness :
  let cs := [CAddClause [-1; 2; -4]; CAddXorClause [7; 0] None;
             CAddXorClause [3; 5] (Some false)] in
  let self := run cs (fresh64 (maxint env64)) in
  @session ref64 env64 0 None None cs = inr self ∧
  (var None self).1 = 6.
Proof.
  intros cs self.
  assert (@session ref64 env64 0 None None cs = inr self) as Hs
    by reflexivity.
  split; [exact Hs|].
  exact (@var_is_one_past_largest ref64 env64 0 None None cs None self Hs).
Defined.

Section Counting.
Context `{E : Engine}.
Implicit Types (self : CryptoMiniSat E) (c : call) (cs : list call).

(** The variables seen lie between [1] and the largest literal. *)
Lemma vars_within_largest cs :
  (list_to_set (Z.abs <$> (entries cs ≫= lits_of)) : gset Z)
  ⊆ list_to_set (seqZ 1 (max_abs (entries cs ≫= lits_of))).
Proof.
  intros x. rewrite !elem_of_list_to_set, list_elem_of_fmap, elem_of_seqZ.
  intros (l & -> & Hl). pose proof (abs_le_max_abs _ _ Hl).
  apply list_elem_of_bind in Hl as (en & Hl & Hen%entries_nonzero).
  assert (l ≠ 0) by (intros ->; done). lia.
Qed.

Lemma size_upto (m : Z) :
  0 ≤ m → Z.of_nat (size (list_to_set (seqZ 1 m) : gset Z)) = m.
Proof.
  intros Hm. rewrite size_list_to_set, length_seqZ by apply NoDup_seqZ. lia.
Qed.

Lemma run_app cs cs' self : run (cs ++ cs') self = run cs' (run cs self).
Proof. unfold run. apply foldl_app. Qed.

Lemma entries_app cs cs' : entries (cs ++ cs') = entries cs ++ entries cs'.
Proof. unfold entries. apply bind_app. Qed.

Lemma session_app env v cl th cs cs' self :
  session env v cl th cs = inr self →
  session env v cl th (cs ++ cs') = inr (run cs' self).
Proof.
  unfold session. destruct (__init__ env v cl th); [discriminate|].
  intros [= <-]. by rewrite run_app.
Qed.

Lemma step_idle self c :
  entry_of c = [] → (∀ a, c ≠ CSolve a) → step self c = self.
Proof.
  intros Hc Hsolve.
  destruct c as [d| |lits|lits rhs|a|fn]; simpl in *; unfold_methods;
    repeat case_bool_decide; try done.
  - by destruct (Hsolve a).
  - by destruct fn.
Qed.

End Counting.

(** X3.  After any trace of calls on a solver built by [__init__],
    [nvars()] equals the largest absolute value of a literal accepted so
    far exactly when every variable from [1] up to that value occurs in an
    accepted clause; otherwise it is smaller. *)
Theorem nvars_is_largest_iff_no_gaps `{E : Engine} env v cl th cs
    (self : CryptoMiniSat E) :
  session env v cl th cs = inr self →
  Z.of_nat (nvars self).1 ≤ max_abs (entries cs ≫= lits_of) ∧
  (Z.of_nat (nvars self).1 = max_abs (entries cs ≫= lits_of)
   ↔ no_gaps (entries cs ≫= lits_of)).
Proof.
  intros Hvars%vars_of_session. unfold nvars, no_gaps. simpl.
  rewrite Hvars. clear Hvars.
  set (L := entries cs ≫= lits_of).
  pose proof (vars_within_largest cs) as Hsub. fold L in Hsub.
  pose proof (size_upto _ (max_abs_nonneg L)) as Hsize.
  pose proof (subseteq_size _ _ Hsub) as Hle.
  split; [lia|]. split.
  - intros Heq i Hi.
    assert (list_to_set (Z.abs <$> L)
            = (list_to_set (seqZ 1 (max_abs L)) : gset Z)) as Hsame
      by (apply (set_subseteq_size_eq _ _ Hsub); lia).
    apply (elem_of_list_to_set (C := gset Z)). rewrite Hsame.
    apply elem_of_list_to_set, elem_of_seqZ. lia.
  - intros Hall.
    assert ((list_to_set (seqZ 1 (max_abs L)) : gset Z)
            ⊆ list_to_set (Z.abs <$> L)) as Hsup.
    { intros i [??]%elem_of_list_to_set%elem_of_seqZ.
      apply elem_of_list_to_set, Hall. lia. }
    apply subseteq_size in Hsup. lia.
Qed.

Lemma nvars_is_largest_iff_no_gaps_witness :
  let cs := [CAddClause [2; -3]; CAddXorClause [1; 3] None] in
  let self := run cs (fresh64 (maxint env64)) in
  @session ref64 env64 0 None None cs = inr self ∧
  Z.of_nat (nvars self).1 ≤ 3 ∧
  (Z.of_nat (nvars self).1 = 3 ↔ no_gaps [2; -3; 1; 3]).
Proof.
  intros cs self.
  assert (@session ref64 env64 0 None None cs = inr self) as Hs
    by reflexivity.
  split; [exact Hs|].
  exact (@nvars_is_largest_iff_no_gaps ref64 env64 0 None None cs self Hs).
Defined.

(** X4.  Nothing shrinks: after further calls on a solver built by
    [__init__], the list [clauses()] returned before is a prefix of the
    list it returns now, and [nvars()] and [var()] are at least what they
    were. *)
Theorem further_calls_only_add `{E : Engine} env v cl th cs cs' d
    (self : CryptoMiniSat E) :
  session env v cl th cs = inr self →
  _clauses self `prefix_of` _clauses (run cs' self) ∧
  ((nvars self).1 ≤ (nvars (run cs' self)).1)%nat ∧
  (var d self).1 ≤ (var d (run cs' self)).1.
Proof.
  intros Hs. split; [|split].
  - rewrite run_clauses. by eexists.
  - unfold nvars. simpl. apply subseteq_size. rewrite run_vars. set_solver.
  - rewrite (var_of_session _ _ _ _ _ _ _ Hs),
      (var_of_session _ _ _ _ _ _ _ (session_app _ _ _ _ _ cs' _ Hs)),
      entries_app, bind_app, max_abs_app. lia.
Qed.

Lemma further_calls_only_add_witness :
  let cs := [CAddClause [1; 5]] in
  let cs' := [CSolve None; CAddClause [-2]; CAddXorClause [9; 1] None] in
  let self := run cs (fresh64 (maxint env64)) in
  @session ref64 env64 0 None None cs = inr self ∧
  _clauses self `prefix_of` _clauses (run cs' self) ∧
  ((nvars self).1 ≤ (nvars (run cs' self)).1)%nat ∧
  (var None self).1 ≤ (var None (run cs' self)).1.
Proof.
  intros cs cs' self.
  assert (@session ref64 env64 0 None None cs = inr self) as Hs
    by reflexivity.
  split; [exact Hs|].
  exact (@further_calls_only_add ref64 env64 0 None None cs cs' None self Hs).
Defined.

(** X5.  A trace in which no clause is accepted (only [var], [nvars],
    [clauses], [__call__] and rejected clauses) leaves the variable set and
    the clause list of any solver as they were, and if it has no [__call__]
    either it leaves the whole solver, engine included, as it was. *)
Theorem only_accepted_clauses_change_bookkeeping `{E : Engine}
    (self : CryptoMiniSat E) (cs : list call) :
  entries cs = [] →
  _vars (run cs self) = _vars self ∧
  _clauses (run cs self) = _clauses self ∧
  ((∀ a, CSolve a ∉ cs) → run cs self = self).
Proof.
  intros Hcs. split; [|split].
  - rewrite run_vars, Hcs. set_solver.
  - by rewrite run_clauses, Hcs, app_nil_r.
  - revert self. induction cs as [|c cs IH]; intros self Hsolve; [done|].
    rewrite entries_cons in Hcs. apply app_eq_nil in Hcs as [Hc Hcs].
    rewrite run_cons, step_idle; [|done|].
    + apply IH; [done|]. intros a Ha. apply (Hsolve a). by right.
    + intros a ->. apply (Hsolve a). by left.
Qed.

Lemma only_accepted_clauses_change_bookkeeping_witness :
  let self := run [CAddClause [1; 2]] (fresh64 (maxint env64)) in
  let cs := [CVar None; CAddClause [3; 0]; CNvars; CClauses (Some "f");
             CAddXorClause [0] None] in
  entries cs = [] ∧
  _vars (run cs self) = _vars self ∧
  _clauses (run cs self) = _clauses self ∧
  ((∀ a, CSolve a ∉ cs) → run cs self = self).
Proof.
  intros self cs.
  assert (entries cs = []) as Hcs by reflexivity.
  split; [exact Hcs|].
  exact (@only_accepted_clauses_change_bookkeeping ref64 self cs Hcs).
Defined.

(** X6.  Every entry of the list that [clauses()] returns on a solver built
    by [__init__] has no [0] among its literals and is either
    [(lits, False, None)] or [(lits, True, rhs)] with a Boolean [rhs]. *)
Theorem exported_entries_well_formed `{E : Engine} env v cl th cs
    (self : CryptoMiniSat E) (ens : list clause_entry) :
  session env v cl th cs = inr self →
  (clauses None self).1 = Returned ens →
  ∀ lits is_xor rhs, (lits, is_xor, rhs) ∈ ens →
    (0 ∉ lits) ∧
    (is_xor = false ∧ rhs = None ∨ is_xor = true ∧ is_Some rhs).
Proof.
  intros [_ ->]%session_inv [= <-] lits is_xor rhs.
  rewrite run_clauses. simpl. intros Hen.
  split; [by apply (entries_nonzero cs _ Hen)|].
  apply list_elem_of_bind in Hen as (c & Hen & _).
  destruct c; simpl in Hen; try (by apply not_elem_of_nil in Hen);
    case_bool_decide; try (by apply not_elem_of_nil in Hen);
    apply list_elem_of_singleton in Hen as [= -> -> ->]; eauto.
Qed.

Lemma exported_entries_well_formed_witness :
  let cs := [CAddClause [1; -2]; CAddXorClause [0; 1] None;
             CAddXorClause [1; 2] (Some false)] in
  let self := run cs (fresh64 (maxint env64)) in
  let ens := [([1; -2], false, None); ([1; 2], true, Some false)] in
  @session ref64 env64 0 None None cs = inr self ∧
  (clauses None self).1 = Returned ens ∧
  ∀ lits is_xor rhs, (lits, is_xor, rhs) ∈ ens →
    (0 ∉ lits) ∧
    (is_xor = false ∧ rhs = None ∨ is_xor = true ∧ is_Some rhs).
Proof.
  intros cs self ens.
  assert (@session ref64 env64 0 None None cs = inr self) as Hs
    by reflexivity.
  assert ((clauses None self).1 = Returned ens) as Hc by reflexivity.
  split; [exact Hs|]. split; [exact Hc|].
  exact (@exported_entries_well_formed ref64 env64 0 None None cs self ens
           Hs Hc).
Defined.




Section Solving.
Context `{E : Engine}.
Implicit Types (self : CryptoMiniSat E) (c : call) (cs : list call).

(** A tuple handed back by [__call__] passes every accepted entry, for an
    engine that is sound. *)
Lemma call_tuple_models (db : eng → list clause_entry) (HE : EngineSound db)
    env v cl th cs a self t :
  session env v cl th cs = inr self →
  (__call__ a self).1 = PyTuple t →
  ∀ en, en ∈ entries cs → entry_sat t en = true.
Proof.
  intros [_ ->]%session_inv [Hsat Ht]%call_tuple.
  destruct (solve_sound db HE _ _ Hsat) as (t' & Ht' & Hall).
  rewrite Ht in Ht'. injection Ht' as <-.
  rewrite (run_db db HE) in Hall. simpl in Hall.
  by rewrite (db_Solver db HE), app_nil_l, Forall_forall in Hall.
Qed.

End Solving.

(** X9.  The empty clause and the empty XOR clause with right-hand side
    [True] (the default) are accepted, and once one of them has been
    accepted [__call__] never returns an assignment again; the engine is
    any engine whose assignments satisfy the constraints it was given
    ([EngineSound]). *)
Theorem empty_clause_never_satisfied `{E : Engine}
    (db : eng → list clause_entry) (HE : EngineSound db)
    env v cl th cs a (self : CryptoMiniSat E) t :
  session env v cl th cs = inr self →
  CAddClause [] ∈ cs ∨ CAddXorClause [] None ∈ cs ∨
    CAddXorClause [] (Some true) ∈ cs →
  (__call__ a self).1 ≠ PyTuple t.
Proof.
  intros Hs Hcs Ht.
  pose proof (call_tuple_models db HE _ _ _ _ _ _ _ _ Hs Ht) as Hall.
  destruct Hcs as [Hc|[Hc|Hc]].
  - assert (entry_sat t ([], false, None) = true) as Hsat; [|done].
    apply Hall, (entries_elem _ _ _ Hc). by left.
  - assert (entry_sat t ([], true, Some true) = true) as Hsat; [|done].
    apply Hall, (entries_elem _ _ _ Hc). by left.
  - assert (entry_sat t ([], true, Some true) = true) as Hsat; [|done].
    apply Hall, (entries_elem _ _ _ Hc). by left.
Qed.

Lemma empty_clause_never_satisfied_witness :
  let cs := [CAddClause [1; 2]; CAddXorClause [] None] in
  let self := run cs (fresh64 (maxint env64)) in
  @session ref64 env64 0 None None cs = inr self ∧
  (CAddClause [] ∈ cs ∨ CAddXorClause [] None ∈ cs ∨
     CAddXorClause [] (Some true) ∈ cs) ∧
  (__call__ None self).1 = PyBool false ∧
  (__call__ None self).1 ≠ PyTuple [None; Some false; Some true].
Proof.
  intros cs self.
  assert (@session ref64 env64 0 None None cs = inr self) as Hs
    by reflexivity.
  assert (CAddClause [] ∈ cs ∨ CAddXorClause [] None ∈ cs ∨
            CAddXorClause [] (Some true) ∈ cs) as Hcs
    by (right; left; right; left).
  split; [exact Hs|]. split; [exact Hcs|].
  split; [vm_compute; reflexivity|].
  exact (@empty_clause_never_satisfied ref64 Ref.db (Ref_sound (maxint env64))
           env64 0 None None cs None self _ Hs Hcs).
Defined.


